(** * The data engine of the CSV data viewer (src/script.js, class DataViewer)

    A shallow embedding of the viewer's in-memory engine: the CSV parser
    ([parseCSV], [parseCSVLine]), the search filter and the sort of
    [filterData], the page slice of [renderTable], the page arithmetic of
    [updatePagination], and the handlers that drive them.  The DOM is not
    modelled: what a handler renders is a function of the viewer's fields. *)

From Stdlib Require Import ZArith NArith Floats Strings.String Strings.Ascii FunInd.
From stdpp Require Import base option list sorting.

Local Open Scope Z_scope.

(** ** Strings

    A JavaScript string is a sequence of UTF-16 code units. *)

Definition char := N.
Definition jsstring := list char.

(** The code units of an ASCII literal. *)
Fixpoint lit (s : string) : jsstring :=
  match s with
  | EmptyString => []
  | String a s' => N_of_ascii a :: lit s'
  end.
Arguments lit _%_string.

Definition dquote : char := 34%N.
Definition comma : char := 44%N.
Definition newline : char := 10%N.

(** [String.prototype.trim] strips the code units of WhiteSpace and
    LineTerminator (ECMAScript 12.2, 12.3): TAB, LF, VT, FF, CR, SP, NBSP,
    U+1680, U+2000..U+200A, U+2028, U+2029, U+202F, U+205F, U+3000, U+FEFF. *)
Definition isWhiteSpace (c : char) : bool :=
  (existsb (N.eqb c)
     [9; 10; 11; 12; 13; 32; 160; 5760; 8232; 8233; 8239; 8287; 12288; 65279]
   || ((8192 <=? c) && (c <=? 8202)))%N.

Fixpoint trimStart (s : jsstring) : jsstring :=
  match s with
  | [] => []
  | c :: s' => if isWhiteSpace c then trimStart s' else s
  end.

Definition trimEnd (s : jsstring) : jsstring := reverse (trimStart (reverse s)).

Definition trim (s : jsstring) : jsstring := trimEnd (trimStart s).

(** A string that neither starts nor ends with white space. *)
Definition trimmed (s : jsstring) : Prop :=
  (∀ c, head s = Some c → isWhiteSpace c = false) ∧
  (∀ c, last s = Some c → isWhiteSpace c = false).

(** [s.split(sep)] for a separator of one code unit: never empty. *)
Fixpoint split (sep : char) (s : jsstring) : list jsstring :=
  match s with
  | [] => [[]]
  | c :: s' =>
      if (c =? sep)%N then [] :: split sep s'
      else match split sep s' with
           | cur :: rest => (c :: cur) :: rest
           | [] => [[c]]
           end
  end.

Fixpoint startsWith (t s : jsstring) : bool :=
  match t, s with
  | [], _ => true
  | _ :: _, [] => false
  | a :: t', b :: s' => (a =? b)%N && startsWith t' s'
  end.

(** [s.includes(t)]: [t] occurs in [s] as a contiguous run. *)
Fixpoint includes (s t : jsstring) : bool :=
  startsWith t s ||
  match s with
  | [] => false
  | _ :: s' => includes s' t
  end.

(** ** CSV parser *)

(** The body of the [for] loop of [parseCSVLine], by recursion on the part of
    the line that is still to be read; [i++] on an escaped quote consumes the
    second quote, and [line[i + 1]] past the end is [undefined]. *)
Fixpoint parseCSVLine_loop (line : jsstring) (result : list jsstring)
    (current : jsstring) (inQuotes : bool) : list jsstring :=
  match line with
  | [] => result ++ [trim current]
  | c :: rest =>
      if (c =? dquote)%N then
        match inQuotes, rest with
        | true, c' :: rest' =>
            if (c' =? dquote)%N
            then parseCSVLine_loop rest' result (current ++ [dquote]) inQuotes
            else parseCSVLine_loop rest result current (negb inQuotes)
        | _, _ => parseCSVLine_loop rest result current (negb inQuotes)
        end
      else if (c =? comma)%N && negb inQuotes then
        parseCSVLine_loop rest (result ++ [trim current]) [] inQuotes
      else parseCSVLine_loop rest result (current ++ [c]) inQuotes
  end.

Functional Scheme parseCSVLine_loop_ind :=
  Induction for parseCSVLine_loop Sort Prop.

Definition parseCSVLine (line : jsstring) : list jsstring :=
  parseCSVLine_loop line [] [] false.

(** A record is a plain object whose own properties are strings, kept in
    insertion order.  The viewer reads records only at column names taken
    from [Object.keys] of a parsed record, so inherited members of
    [Object.prototype] are never the result of a read. *)
Definition record := list (jsstring * jsstring).

Fixpoint assign (key value : jsstring) (row : record) : record :=
  match row with
  | [] => [(key, value)]
  | (k, v) :: row' =>
      if bool_decide (k = key) then (k, value) :: row'
      else (k, v) :: assign key value row'
  end.

(** [row[key] = value] on a plain object: assigning a string to [__proto__]
    reaches the setter of [Object.prototype], which ignores it. *)
Definition setProp (key value : jsstring) (row : record) : record :=
  if bool_decide (key = lit "__proto__") then row else assign key value row.

Definition ownProp (row : record) (key : jsstring) : option jsstring :=
  snd <$> List.find (fun kv => bool_decide (fst kv = key)) row.

(** [headers.forEach((header, index) => row[header] = values[index] || '')]. *)
Fixpoint forEach_header (headers : list jsstring) (index : nat)
    (values : list jsstring) (row : record) : record :=
  match headers with
  | [] => row
  | header :: headers' =>
      forEach_header headers' (S index) values
        (setProp header (default [] (values !! index)) row)
  end.

Definition makeRow (headers values : list jsstring) : record :=
  forEach_header headers 0%nat values [].

(** One turn of the [for] loop of [parseCSV]. *)
Definition parseCSV_step (headers : list jsstring) (data : list record)
    (line : jsstring) : list record :=
  let values := parseCSVLine line in
  if (length values =? length headers)%nat
  then data ++ [makeRow headers values]
  else data.

Definition parseCSV (csvText : jsstring) : list record :=
  let lines := split newline (trim csvText) in
  if (length lines <? 2)%nat then []
  else match lines with
       | [] => []
       | line0 :: rest => fold_left (parseCSV_step (parseCSVLine line0)) rest []
       end.

(** ** Values and completions

    A read of a property yields a string or [undefined]; calling a method on
    [undefined] throws a [TypeError].  A completion is normal or a throw, and
    a throw inside a callback leaves the array method that called it. *)

Inductive value := VUndefined | VString (s : jsstring).

Inductive error := TypeError.

Inductive completion (A : Type) :=
  | Normal (a : A)
  | Throw (e : error).
Arguments Normal {A} a.
Arguments Throw {A} e.

#[global] Instance completion_ret : MRet completion := @Normal.
#[global] Instance completion_bind : MBind completion :=
  λ A B f m, match m with Normal a => f a | Throw e => Throw e end.
#[global] Instance completion_fmap : FMap completion :=
  λ A B f m, match m with Normal a => Normal (f a) | Throw e => Throw e end.

Definition getProp (row : record) (key : jsstring) : value :=
  from_option VString VUndefined (ownProp row key).

(** [Object.values(row)]. *)
Definition Object_values (row : record) : list value :=
  map (λ kv, VString (snd kv)) row.

(** [v.toString()]. *)
Definition toString (v : value) : completion jsstring :=
  match v with
  | VUndefined => Throw TypeError
  | VString s => Normal s
  end.

(** [v?.k]: [undefined] short-circuits the rest of the chain. *)
Definition optional {A} (v : value) (k : value → completion A)
    : completion (option A) :=
  match v with
  | VUndefined => Normal None
  | _ => Some <$> k v
  end.

(** A string is truthy unless it is empty; [null] and [undefined] are falsy. *)
Definition truthy (s : jsstring) : bool := negb (bool_decide (s = [])).

(** ** Array methods taking a callback *)

(** What a callback of [some] or [filter] answers here is a boolean or
    [undefined]; the array method reads it through ToBoolean. *)
Definition ToBoolean (answer : option bool) : bool := default false answer.

(** [l.some(f)]: stops at the first truthy answer. *)
Fixpoint Array_some {A} (f : A → completion (option bool)) (l : list A)
    : completion bool :=
  match l with
  | [] => Normal false
  | x :: l' =>
      answer ← f x;
      if ToBoolean answer then Normal true else Array_some f l'
  end.

(** [l.filter(f)]: a new array of the elements with a truthy answer. *)
Fixpoint Array_filter {A} (f : A → completion (option bool)) (l : list A)
    : completion (list A) :=
  match l with
  | [] => Normal []
  | x :: l' =>
      answer ← f x;
      kept ← Array_filter f l';
      Normal (if ToBoolean answer then x :: kept else kept)
  end.

(** [l.sort(cmp)].  ECMAScript fixes the outcome for every consistent
    comparator: the stable arrangement in which [x] comes after [y] exactly
    when [cmp x y > 0] (a [NaN] answer counts as [+0]); the sequence of calls
    is left to the engine.  The model is the stable insertion sort, which
    computes that arrangement. *)
Fixpoint sort_insert {A} (cmp : A → A → completion float) (x : A) (l : list A)
    : completion (list A) :=
  match l with
  | [] => Normal [x]
  | y :: l' =>
      v ← cmp x y;
      if (0 <? v)%float
      then (placed ← sort_insert cmp x l'; Normal (y :: placed))
      else Normal (x :: y :: l')
  end.

Fixpoint Array_sort {A} (cmp : A → A → completion float) (l : list A)
    : completion (list A) :=
  match l with
  | [] => Normal []
  | x :: l' => sorted ← Array_sort cmp l'; sort_insert cmp x sorted
  end.

(** [x] may stand before [y] in the outcome of [sort] unless the comparator
    answers a number above 0 for them. *)
Definition mayPrecede {A} (f : A → A → float) (x y : A) : Prop :=
  (0 <? f x y)%float = false.

(** [l.slice(start, end)] with the relative indices of ECMAScript: a
    negative index counts from the end, and both are clamped to the array. *)
Definition Array_slice {A} (l : list A) (start end_ : Z) : list A :=
  let len := Z.of_nat (length l) in
  let k := if start <? 0 then Z.max (len + start) 0 else Z.min start len in
  let final := if end_ <? 0 then Z.max (len + end_) 0 else Z.min end_ len in
  take (Z.to_nat (final - k)) (drop (Z.to_nat k) l).

(** ** Numbers of the page arithmetic

    [Math.ceil(a / b)] on integers [a], [b]: exact for [b <> 0] (array
    lengths are below 2^32, so the quotient rounds to no integer it is not),
    an infinity or [NaN] for [b = 0]. *)
Inductive number := Fin (z : Z) | PosInfinity | NegInfinity | NaN.

Definition Math_ceil_div (a b : Z) : number :=
  if b =? 0 then
    if a =? 0 then NaN else if 0 <? a then PosInfinity else NegInfinity
  else Fin (- ((- a) / b)).

(** [x < y] and [x >= y] for an integer [x]; every comparison with [NaN] is false. *)
Definition lt_number (x : Z) (y : number) : bool :=
  match y with
  | Fin z => x <? z
  | PosInfinity => true
  | NegInfinity | NaN => false
  end.

Definition ge_number (x : Z) (y : number) : bool :=
  match y with
  | Fin z => z <=? x
  | NegInfinity => true
  | PosInfinity | NaN => false
  end.

Definition le_number (y : number) (x : Z) : bool :=
  match y with
  | Fin z => z <=? x
  | NegInfinity => true
  | PosInfinity | NaN => false
  end.

(** ** The viewer

    The fields of [DataViewer] that the engine reads and writes.  [data] and
    [filteredData] hold references to arrays; the arrays live in a heap, so
    that an in-place [sort] is a write to the array it is called on. *)

Inductive direction := asc | desc.

Abbreviation loc := nat.

Record DataViewer := mkDataViewer {
  data : loc;
  filteredData : loc;
  currentPage : Z;
  itemsPerPage : Z;
  sortColumn : option jsstring;
  sortDirection : direction;
  searchTerm : jsstring;
  columnFilter : jsstring
}.

Definition set_data (v : loc) (this : DataViewer) : DataViewer :=
  mkDataViewer v (filteredData this) (currentPage this) (itemsPerPage this)
    (sortColumn this) (sortDirection this) (searchTerm this) (columnFilter this).
Definition set_filteredData (v : loc) (this : DataViewer) : DataViewer :=
  mkDataViewer (data this) v (currentPage this) (itemsPerPage this)
    (sortColumn this) (sortDirection this) (searchTerm this) (columnFilter this).
Definition set_currentPage (v : Z) (this : DataViewer) : DataViewer :=
  mkDataViewer (data this) (filteredData this) v (itemsPerPage this)
    (sortColumn this) (sortDirection this) (searchTerm this) (columnFilter this).
Definition set_itemsPerPage (v : Z) (this : DataViewer) : DataViewer :=
  mkDataViewer (data this) (filteredData this) (currentPage this) v
    (sortColumn this) (sortDirection this) (searchTerm this) (columnFilter this).
Definition set_sortColumn (v : option jsstring) (this : DataViewer) : DataViewer :=
  mkDataViewer (data this) (filteredData this) (currentPage this) (itemsPerPage this)
    v (sortDirection this) (searchTerm this) (columnFilter this).
Definition set_sortDirection (v : direction) (this : DataViewer) : DataViewer :=
  mkDataViewer (data this) (filteredData this) (currentPage this) (itemsPerPage this)
    (sortColumn this) v (searchTerm this) (columnFilter this).
Definition set_searchTerm (v : jsstring) (this : DataViewer) : DataViewer :=
  mkDataViewer (data this) (filteredData this) (currentPage this) (itemsPerPage this)
    (sortColumn this) (sortDirection this) v (columnFilter this).
Definition set_columnFilter (v : jsstring) (this : DataViewer) : DataViewer :=
  mkDataViewer (data this) (filteredData this) (currentPage this) (itemsPerPage this)
    (sortColumn this) (sortDirection this) (searchTerm this) v.

(** The heap of arrays: a reference is an index, a new array takes the next one. *)
Abbreviation heap := (list (list record)).

Definition deref (h : heap) (l : loc) : list record := default [] (h !! l).

Definition alloc (a : list record) (h : heap) : loc * heap := (length h, h ++ [a]).

(** The state of the constructor: two empty arrays, page 1, 25 rows a page. *)
Definition constructor : DataViewer * heap :=
  (mkDataViewer 0%nat 1%nat 1 25 None asc [] [], [[]; []]).

(** ** Pagination: what [renderTable] and [updatePagination] show *)

(** The rows [renderTable] puts in the table body: none when there is
    nothing to show (the "No data found" row is no data row), else the slice
    of the current page. *)
Definition renderTable (rows : list record) (currentPage itemsPerPage : Z)
    : list record :=
  if (length rows =? 0)%nat then []
  else
    let startIndex := if itemsPerPage =? -1 then 0 else (currentPage - 1) * itemsPerPage in
    let endIndex :=
      if itemsPerPage =? -1 then Z.of_nat (length rows) else startIndex + itemsPerPage in
    Array_slice rows startIndex endIndex.

(** The numbers of [updatePagination]: [showing] is [(startItem, endItem)]
    of "Showing X to Y of Z entries", absent in the "Showing all" branch. *)
Record Pagination := mkPagination {
  totalPages : number;
  showing : option (Z * Z);
  prevBtn_disabled : bool;
  nextBtn_disabled : bool;
  paginationContainer_hidden : bool
}.

Definition updatePagination (totalItems currentPage itemsPerPage : Z) : Pagination :=
  let totalPages :=
    if itemsPerPage =? -1 then Fin 1 else Math_ceil_div totalItems itemsPerPage in
  let showing :=
    if itemsPerPage =? -1 then None
    else
      let startItem := if totalItems =? 0 then 0 else (currentPage - 1) * itemsPerPage + 1 in
      let endItem := Z.min (currentPage * itemsPerPage) totalItems in
      Some (startItem, endItem) in
  mkPagination totalPages showing
    (currentPage <=? 1)
    (ge_number currentPage totalPages)
    ((itemsPerPage =? -1) || le_number totalPages 1).

(** ** Navigation *)

(** [goToPage] re-renders after the assignment; the rendering is a function
    of the fields, so the assignment is all that changes. *)
Definition goToPage (pageNum : Z) (this : DataViewer) : DataViewer :=
  set_currentPage pageNum this.

Definition previousPage (this : DataViewer) : DataViewer :=
  if 1 <? currentPage this then goToPage (currentPage this - 1) this else this.

Definition nextPage (h : heap) (this : DataViewer) : DataViewer :=
  let totalPages :=
    Math_ceil_div (Z.of_nat (length (deref h (filteredData this)))) (itemsPerPage this) in
  if lt_number (currentPage this) totalPages
  then goToPage (currentPage this + 1) this else this.

(** ** Filtering, sorting and the handlers *)

Section Engine.

(** The built-ins the engine calls and this development leaves open:
    [String.prototype.toLowerCase], the global [parseFloat],
    [aVal.localeCompare(bVal, undefined, { numeric: true })], and the
    integer [parseInt] reads ([None] where it reads none). *)
Variable toLowerCase : jsstring → jsstring.
Variable parseFloat : jsstring → float.
Variable localeCompare : jsstring → jsstring → float.
Variable parseInt : jsstring → option Z.

(** [v?.toString().toLowerCase().includes(this.searchTerm)]. *)
Definition cellIncludes (this : DataViewer) (v : value) : completion (option bool) :=
  optional v (λ v',
    s ← toString v';
    Normal (includes (toLowerCase s) (searchTerm this))).

(** The callback of [filter] in [filterData]. *)
Definition matchesSearch (this : DataViewer) (row : record)
    : completion (option bool) :=
  if truthy (columnFilter this)
  then cellIncludes this (getProp row (columnFilter this))
  else Some <$> Array_some (cellIncludes this) (Object_values row).

(** [a[this.sortColumn]?.toString() || '']. *)
Definition cellText (column : jsstring) (row : record) : completion jsstring :=
  text ← optional (getProp row column) toString;
  Normal (default [] text).

(** The comparator of [sort] in [filterData]. *)
Definition compareRows (column : jsstring) (dir : direction) (a b : record)
    : completion float :=
  aVal ← cellText column a;
  bVal ← cellText column b;
  let aNum := parseFloat aVal in
  let bNum := parseFloat bVal in
  if negb (is_nan aNum) && negb (is_nan bNum) then
    Normal (match dir with asc => aNum - bNum | desc => bNum - aNum end)%float
  else
    let comparison := localeCompare aVal bVal in
    Normal (match dir with asc => comparison | desc => - comparison end)%float.

(** [rows.sort(...)] with that comparator. *)
Definition sortRows (column : jsstring) (dir : direction) (rows : list record)
    : completion (list record) :=
  Array_sort (compareRows column dir) rows.

(** [filterData]: [filtered] starts as a copy of [this.data], is replaced by
    the array [filter] returns when there is a search term, is sorted in
    place when there is a sort column, and ends in [this.filteredData]. *)
Definition filterData (this : DataViewer) (h : heap)
    : completion (DataViewer * heap) :=
  let '(filtered, h) := alloc (deref h (data this)) h in
  '(filtered, h) ←
    (if truthy (searchTerm this) then
       kept ← Array_filter (matchesSearch this) (deref h filtered);
       Normal (alloc kept h)
     else Normal (filtered, h));
  h ←
    match sortColumn this with
    | Some column =>
        if truthy column then
          sorted ← sortRows column (sortDirection this) (deref h filtered);
          Normal (<[filtered := sorted]> h)
        else Normal h
    | None => Normal h
    end;
  Normal (set_filteredData filtered this, h).

Definition handleSort (column : jsstring) (this : DataViewer) (h : heap)
    : completion (DataViewer * heap) :=
  let this :=
    if bool_decide (sortColumn this = Some column) then
      set_sortDirection
        (match sortDirection this with asc => desc | desc => asc end) this
    else set_sortDirection asc (set_sortColumn (Some column) this) in
  filterData this h.

Definition handleSearch (term : jsstring) (this : DataViewer) (h : heap)
    : completion (DataViewer * heap) :=
  filterData (set_currentPage 1 (set_searchTerm (toLowerCase term) this)) h.

Definition handleColumnFilter (column : jsstring) (this : DataViewer) (h : heap)
    : completion (DataViewer * heap) :=
  filterData (set_currentPage 1 (set_columnFilter column this)) h.

(** [this.itemsPerPage = value === '-1' ? -1 : parseInt(value)]; no
    successor where [parseInt] reads no integer. *)
Definition handleEntriesChange (value : jsstring) (this : DataViewer)
    : option DataViewer :=
  n ← (if bool_decide (value = lit "-1") then Some (-1) else parseInt value);
  Some (set_currentPage 1 (set_itemsPerPage n this)).

(** [handleLogout], by the answer to [confirm]. *)
Definition handleLogout (confirmed : bool) (this : DataViewer) (h : heap)
    : DataViewer * heap :=
  if confirmed then
    let '(d, h) := alloc [] h in
    let '(f, h) := alloc [] h in
    (set_columnFilter [] (set_searchTerm []
       (set_currentPage 1 (set_filteredData f (set_data d this)))), h)
  else (this, h).

(** [loadData] once the fetch has answered with [csvText]: an empty parse
    throws inside the [try], and the [catch] leaves the fields as they are
    at the throw. *)
Definition loadData (csvText : jsstring) (this : DataViewer) (h : heap)
    : DataViewer * heap :=
  let '(d, h) := alloc (parseCSV csvText) h in
  let this := set_data d this in
  if (length (parseCSV csvText) =? 0)%nat then (this, h)
  else match filterData this h with
       | Normal w => w
       | Throw _ => (this, h)
       end.

(** What the user and the page can make the viewer do. *)
Inductive event :=
  | LoadData (csvText : jsstring)
  | HandleSort (column : jsstring)
  | HandleSearch (term : jsstring)
  | HandleColumnFilter (column : jsstring)
  | HandleEntriesChange (value : jsstring)
  | GoToPage (pageNum : Z)
  | PreviousPage
  | NextPage
  | HandleLogout (confirmed : bool).

Definition normal {A} (c : completion A) : option A :=
  match c with Normal a => Some a | Throw _ => None end.

Definition step (e : event) (w : DataViewer * heap) : option (DataViewer * heap) :=
  let '(this, h) := w in
  match e with
  | LoadData csvText => Some (loadData csvText this h)
  | HandleSort column => normal (handleSort column this h)
  | HandleSearch term => normal (handleSearch term this h)
  | HandleColumnFilter column => normal (handleColumnFilter column this h)
  | HandleEntriesChange value => (λ this', (this', h)) <$> handleEntriesChange value this
  | GoToPage pageNum => Some (goToPage pageNum this, h)
  | PreviousPage => Some (previousPage this, h)
  | NextPage => Some (nextPage h this, h)
  | HandleLogout confirmed => Some (handleLogout confirmed this h)
  end.

Inductive reachable : DataViewer * heap → Prop :=
  | reachable_constructor : reachable constructor
  | reachable_step e w w' : reachable w → step e w = Some w' → reachable w'.

End Engine.

(** ** Stand-ins for the open built-ins on plain inputs

    Enough of each built-in to run the engine on ASCII text and short
    unsigned decimal numerals; [compare_units] orders by code unit. *)
Module Plain.

Definition toLowerCase (s : jsstring) : jsstring :=
  map (λ c, if (65 <=? c)%N && (c <=? 90)%N then (c + 32)%N else c) s.

Definition digit (c : char) : option Z :=
  if (48 <=? c)%N && (c <=? 57)%N then Some (Z.of_N c - 48) else None.

Fixpoint digits (acc : Z) (s : jsstring) : Z :=
  match s with
  | [] => acc
  | c :: s' => match digit c with Some d => digits (10 * acc + d) s' | None => acc end
  end.

Definition parseInt (s : jsstring) : option Z :=
  match s with
  | c :: _ => match digit c with Some _ => Some (digits 0 s) | None => None end
  | [] => None
  end.

Definition parseFloat (s : jsstring) : float :=
  match parseInt s with
  | Some n => PrimFloat.of_uint63 (Uint63.of_Z n)
  | None => nan
  end.

Fixpoint compare_units (a b : jsstring) : float :=
  match a, b with
  | [], [] => 0
  | [], _ :: _ => -1
  | _ :: _, [] => 1
  | x :: a', y :: b' =>
      if (x <? y)%N then -1 else if (y <? x)%N then 1 else compare_units a' b'
  end.

Definition localeCompare : jsstring → jsstring → float := compare_units.

End Plain.

(** The data line of the quoting example: the quoted field [a,b], a comma,
    and the quoted field [c], doubled quote, [d]. *)
Definition quoted_line : jsstring :=
  [dquote] ++ lit "a,b" ++ [dquote; comma; dquote] ++ lit "c" ++ [dquote; dquote]
  ++ lit "d" ++ [dquote].

(** ** What the callbacks answer

    The callbacks of [filterData] as functions: the properties below show
    that each callback completes normally with the answer given here. *)

Definition textOf (v : value) : jsstring :=
  match v with
  | VString s => s
  | VUndefined => []
  end.

Definition cellAnswer (toLowerCase : jsstring → jsstring) (this : DataViewer)
    (v : value) : option bool :=
  match v with
  | VString s => Some (includes (toLowerCase s) (searchTerm this))
  | VUndefined => None
  end.

Definition rowAnswer (toLowerCase : jsstring → jsstring) (this : DataViewer)
    (row : record) : option bool :=
  if truthy (columnFilter this)
  then cellAnswer toLowerCase this (getProp row (columnFilter this))
  else Some (existsb (λ v, ToBoolean (cellAnswer toLowerCase this v))
               (Object_values row)).

Definition compareTexts (parseFloat : jsstring → float)
    (localeCompare : jsstring → jsstring → float)
    (dir : direction) (aVal bVal : jsstring) : float :=
  let aNum := parseFloat aVal in
  let bNum := parseFloat bVal in
  if negb (is_nan aNum) && negb (is_nan bNum) then
    match dir with asc => aNum - bNum | desc => bNum - aNum end
  else
    match dir with
    | asc => localeCompare aVal bVal
    | desc => - localeCompare aVal bVal
    end.

(** The two stages of [filterData] on the rows alone. *)
Definition searchStage (toLowerCase : jsstring → jsstring) (this : DataViewer)
    (rows : list record) : completion (list record) :=
  if truthy (searchTerm this)
  then Array_filter (matchesSearch toLowerCase this) rows
  else Normal rows.

Definition sortStage (parseFloat : jsstring → float)
    (localeCompare : jsstring → jsstring → float) (this : DataViewer)
    (rows : list record) : completion (list record) :=
  match sortColumn this with
  | Some column =>
      if truthy column
      then sortRows parseFloat localeCompare column (sortDirection this) rows
      else Normal rows
  | None => Normal rows
  end.

(** The events that call [goToPage], and those that set the page back to 1. *)
Definition navigates (e : event) : bool :=
  match e with
  | GoToPage _ | PreviousPage | NextPage => true
  | _ => false
  end.

Definition resetsPage (e : event) : bool :=
  match e with
  | HandleSearch _ | HandleColumnFilter _ | HandleEntriesChange _
  | HandleLogout true => true
  | _ => false
  end.

(** A file of one column and 26 data rows. *)
Definition csv_26_rows : jsstring :=
  lit "h" ++ concat (replicate 26 (newline :: lit "x")).

(** The viewer after a run of events from the constructor, with the plain
    stand-ins for the built-ins. *)
Definition plain_step : event → DataViewer * heap → option (DataViewer * heap) :=
  step Plain.toLowerCase Plain.parseFloat Plain.localeCompare Plain.parseInt.

Definition after (es : list event) : option (DataViewer * heap) :=
  foldl (λ w e, w ≫= plain_step e) (Some constructor) es.

(** 26 rows loaded and the second page opened; then a search for [x]. *)
Definition viewer_on_page_2 : DataViewer * heap :=
  Eval vm_compute in
    default constructor (after [LoadData csv_26_rows; NextPage]).

Definition viewer_after_search : DataViewer * heap :=
  Eval vm_compute in
    default constructor
      (after [LoadData csv_26_rows; NextPage; HandleSearch (lit "x")]).



(** A viewer sorted by the column [v], ascending. *)
Definition viewer_sorted_by_v : DataViewer :=
  mkDataViewer 0%nat 1%nat 1 25 (Some (lit "v")) asc [] [].

(** * Properties *)

(** ** Trimming *)

Lemma trimStart_head s c : head (trimStart s) = Some c → isWhiteSpace c = false.
Proof.
  induction s as [|x s IH]; simpl; [discriminate|].
  destruct (isWhiteSpace x) eqn:Hx; [exact IH|].
  simpl. intros [= <-]. exact Hx.
Qed.

Lemma trimStart_id s :
  (∀ c, head s = Some c → isWhiteSpace c = false) → trimStart s = s.
Proof.
  destruct s as [|x s]; simpl; [done|].
  intros H. by rewrite (H x eq_refl).
Qed.

Lemma trimStart_suffix s : ∃ k, s = k ++ trimStart s.
Proof.
  induction s as [|x s [k IH]]; simpl; [by exists []|].
  destruct (isWhiteSpace x).
  - exists (x :: k). simpl. by f_equal.
  - by exists [].
Qed.

Lemma trimEnd_prefix s : ∃ k, s = trimEnd s ++ k.
Proof.
  destruct (trimStart_suffix (reverse s)) as [k Hk].
  exists (reverse k). unfold trimEnd.
  by rewrite <- reverse_app, <- Hk, reverse_involutive.
Qed.

Lemma trimEnd_last s c : last (trimEnd s) = Some c → isWhiteSpace c = false.
Proof. unfold trimEnd. rewrite last_reverse. apply trimStart_head. Qed.

Lemma trimEnd_head s c : head (trimEnd s) = Some c → head s = Some c.
Proof.
  destruct (trimEnd_prefix s) as [k Hk]. intros H. rewrite Hk.
  destruct (trimEnd s); [discriminate | exact H].
Qed.

Lemma trim_trimmed s : trimmed (trim s).
Proof.
  split; intros c Hc.
  - apply (trimStart_head s). by apply trimEnd_head.
  - by apply (trimEnd_last (trimStart s)).
Qed.

Lemma trim_id s : trimmed s → trim s = s.
Proof.
  intros [Hh Hl]. unfold trim. rewrite (trimStart_id s Hh).
  unfold trimEnd. rewrite trimStart_id; [apply reverse_involutive|].
  intros c. rewrite head_reverse. apply Hl.
Qed.

(** ** The line splitter *)

(** One turn of the loop. *)
Lemma parseCSVLine_loop_eq line result current inQuotes :
  parseCSVLine_loop line result current inQuotes =
  match line with
  | [] => result ++ [trim current]
  | c :: rest =>
      if (c =? dquote)%N then
        match inQuotes, rest with
        | true, c' :: rest' =>
            if (c' =? dquote)%N
            then parseCSVLine_loop rest' result (current ++ [dquote]) inQuotes
            else parseCSVLine_loop rest result current (negb inQuotes)
        | _, _ => parseCSVLine_loop rest result current (negb inQuotes)
        end
      else if (c =? comma)%N && negb inQuotes then
        parseCSVLine_loop rest (result ++ [trim current]) [] inQuotes
      else parseCSVLine_loop rest result (current ++ [c]) inQuotes
  end.
Proof. by destruct line. Qed.

Ltac loop_turn :=
  rewrite parseCSVLine_loop_eq; cbv beta iota;
  repeat match goal with
         | H : (_ =? _)%N = _ |- _ => rewrite H
         | H : _ && _ = _ |- _ => rewrite H
         end.

(** The fields already pushed are never touched again. *)
Lemma parseCSVLine_loop_app line result current inQuotes :
  ∀ pushed,
    parseCSVLine_loop line (pushed ++ result) current inQuotes
    = pushed ++ parseCSVLine_loop line result current inQuotes.
Proof.
  functional induction (parseCSVLine_loop line result current inQuotes);
    intros pushed; loop_turn; rewrite <- ?IHl, ?app_assoc; done.
Qed.

Lemma parseCSVLine_loop_result line result current inQuotes :
  parseCSVLine_loop line result current inQuotes
  = result ++ parseCSVLine_loop line [] current inQuotes.
Proof.
  rewrite <- parseCSVLine_loop_app. by rewrite app_nil_r.
Qed.

(** Every field is pushed through [trim]. *)
Lemma parseCSVLine_loop_trimmed line result current inQuotes :
  Forall trimmed result →
  Forall trimmed (parseCSVLine_loop line result current inQuotes).
Proof.
  functional induction (parseCSVLine_loop line result current inQuotes);
    intros Hres; auto;
    [|apply IHl]; apply Forall_app; (split; [done|]);
    apply Forall_singleton, trim_trimmed.
Qed.

(** Inside quotes every code unit but the quote is content, the comma too. *)
Lemma parseCSVLine_loop_quoted s rest result current :
  dquote ∉ s →
  parseCSVLine_loop (s ++ rest) result current true
  = parseCSVLine_loop rest result (current ++ s) true.
Proof.
  revert current. induction s as [|c s IH]; intros current Hs; simpl.
  - by rewrite app_nil_r.
  - apply not_elem_of_cons in Hs as [Hc Hs].
    destruct (N.eqb_spec c dquote) as [->|_]; [done|].
    rewrite andb_false_r, IH by done.
    by rewrite <- app_assoc.
Qed.

(** Outside quotes every code unit but the quote and the comma is content. *)
Lemma parseCSVLine_loop_plain s rest result current :
  dquote ∉ s → comma ∉ s →
  parseCSVLine_loop (s ++ rest) result current false
  = parseCSVLine_loop rest result (current ++ s) false.
Proof.
  revert current. induction s as [|c s IH]; intros current Hq Hc; simpl.
  - by rewrite app_nil_r.
  - apply not_elem_of_cons in Hq as [Hq1 Hq].
    apply not_elem_of_cons in Hc as [Hc1 Hc].
    destruct (N.eqb_spec c dquote) as [->|_]; [done|].
    destruct (N.eqb_spec c comma) as [->|_]; [done|].
    simpl. rewrite IH by done. by rewrite <- app_assoc.
Qed.

(** A closing quote: a quote inside quotes that no quote follows. *)
Lemma parseCSVLine_loop_close rest result current :
  head rest ≠ Some dquote →
  parseCSVLine_loop (dquote :: rest) result current true
  = parseCSVLine_loop rest result current false.
Proof.
  intros Hrest. simpl. destruct rest as [|c rest]; [done|].
  destruct (N.eqb_spec c dquote) as [->|_]; [by destruct Hrest|done].
Qed.

(** ** The parser *)

Lemma parseCSV_fold headers rest acc :
  fold_left (parseCSV_step headers) rest acc
  = acc ++ map (λ line, makeRow headers (parseCSVLine line))
             (filter (λ line, length (parseCSVLine line) = length headers) rest).
Proof.
  revert acc. induction rest as [|line rest IH]; intros acc; simpl.
  - by rewrite app_nil_r.
  - rewrite IH. unfold parseCSV_step.
    destruct (Nat.eqb_spec (length (parseCSVLine line)) (length headers)) as [He|He].
    + rewrite filter_cons_True by done. simpl. by rewrite <- app_assoc.
    + by rewrite filter_cons_False by done.
Qed.

Lemma parseCSV_lines csvText :
  parseCSV csvText =
  match split newline (trim csvText) with
  | [] => []
  | line0 :: rest =>
      map (λ line, makeRow (parseCSVLine line0) (parseCSVLine line))
        (filter (λ line, length (parseCSVLine line) = length (parseCSVLine line0)) rest)
  end.
Proof.
  unfold parseCSV. destruct (split newline (trim csvText)) as [|line0 rest]; [done|].
  destruct rest as [|line1 rest]; [done|].
  change (length (line0 :: line1 :: rest) <? 2)%nat with false. cbv iota.
  apply parseCSV_fold.
Qed.

(** C2, the example as the claim has it: with the one-column header [h] the
    data line [quoted_line] has one field too many, and the parse has no
    record. *)
Lemma parseCSV_quoted_example_no_record :
  parseCSV (lit "h" ++ newline :: quoted_line) = []
  ∧ length (parseCSVLine (lit "h")) = 1%nat
  ∧ length (parseCSVLine quoted_line) = 2%nat.
Proof. by vm_compute. Qed.

(** C2 (amended): the line splitter reads [quoted_line] as the two fields
    [a,b] and [c], quote, [d]; under the header [h] the row is dropped, under a header
    of two columns it is the one record of the parse.  In general: between an
    opening quote and its closing quote every code unit, the comma too, is
    content of the current field; a doubled quote inside quotes adds one quote
    to the field; a comma outside quotes ends the field; and every field is
    trimmed at both ends. *)
Theorem parseCSVLine_quoting :
  parseCSVLine quoted_line = [lit "a,b"; lit "c" ++ [dquote] ++ lit "d"]
  ∧ parseCSV (lit "h" ++ newline :: quoted_line) = []
  ∧ parseCSV (lit "h,k" ++ newline :: quoted_line)
    = [[(lit "h", lit "a,b"); (lit "k", lit "c" ++ [dquote] ++ lit "d")]]
  ∧ (∀ s rest result current,
       dquote ∉ s → head rest ≠ Some dquote →
       parseCSVLine_loop (dquote :: s ++ dquote :: rest) result current false
       = parseCSVLine_loop rest result (current ++ s) false)
  ∧ (∀ rest result current,
       parseCSVLine_loop (dquote :: dquote :: rest) result current true
       = parseCSVLine_loop rest result (current ++ [dquote]) true)
  ∧ (∀ s t,
       dquote ∉ s → dquote ∉ t →
       parseCSVLine (dquote :: s ++ dquote :: dquote :: t ++ [dquote])
       = [trim (s ++ dquote :: t)])
  ∧ (∀ s rest,
       dquote ∉ s → comma ∉ s →
       parseCSVLine (s ++ comma :: rest) = trim s :: parseCSVLine rest)
  ∧ (∀ s, dquote ∉ s → comma ∉ s → parseCSVLine s = [trim s])
  ∧ (∀ line, Forall trimmed (parseCSVLine line)).
Proof.
  split; [by vm_compute|]. split; [by vm_compute|]. split; [by vm_compute|].
  split; [|split; [|split; [|split; [|split]]]].
  - intros s rest result current Hs Hrest.
    rewrite parseCSVLine_loop_eq. cbv beta iota.
    change (dquote =? dquote)%N with true. cbv iota.
    change (negb false) with true.
    rewrite parseCSVLine_loop_quoted by done.
    by apply parseCSVLine_loop_close.
  - done.
  - intros s t Hs Ht. unfold parseCSVLine.
    rewrite parseCSVLine_loop_eq. cbv beta iota.
    change (dquote =? dquote)%N with true. cbv iota.
    change (negb false) with true.
    rewrite parseCSVLine_loop_quoted by done.
    rewrite (parseCSVLine_loop_eq (dquote :: dquote :: _)). cbv beta iota.
    change (dquote =? dquote)%N with true. cbv iota.
    rewrite parseCSVLine_loop_quoted by done.
    rewrite parseCSVLine_loop_close by done. simpl.
    by rewrite <- app_assoc.
  - intros s rest Hq Hc. unfold parseCSVLine.
    rewrite parseCSVLine_loop_plain by done.
    rewrite parseCSVLine_loop_eq. cbv beta iota.
    change (comma =? dquote)%N with false. cbv iota.
    change ((comma =? comma)%N && negb false) with true. cbv iota.
    by rewrite parseCSVLine_loop_result.
  - intros s Hq Hc. unfold parseCSVLine.
    rewrite <- (app_nil_r s) at 1.
    by rewrite parseCSVLine_loop_plain.
  - intros line. by apply parseCSVLine_loop_trimmed.
Qed.

(** C4: the records of the parse are, in order, the rows built from exactly
    those data lines whose field count equals the header's; a line with any
    other count adds nothing.  With the header [a,b] the row [1,2,3] is out. *)
Theorem parseCSV_keeps_matching_rows :
  (∀ csvText,
     parseCSV csvText =
     match split newline (trim csvText) with
     | [] => []
     | header :: rows =>
         map (λ line, makeRow (parseCSVLine header) (parseCSVLine line))
           (filter (λ line,
              length (parseCSVLine line) = length (parseCSVLine header)) rows)
     end)
  ∧ (∀ headers line data,
       length (parseCSVLine line) = length headers →
       parseCSV_step headers data line = data ++ [makeRow headers (parseCSVLine line)])
  ∧ (∀ headers line data,
       length (parseCSVLine line) ≠ length headers →
       parseCSV_step headers data line = data)
  ∧ parseCSV (lit "a,b" ++ newline :: lit "1,2,3") = []
  ∧ parseCSV (lit "a,b" ++ newline :: lit "1,2,3" ++ newline :: lit "4,5")
    = [[(lit "a", lit "4"); (lit "b", lit "5")]].
Proof.
  split; [exact parseCSV_lines|].
  split; [|split; [|split; by vm_compute]].
  - intros headers line data H. unfold parseCSV_step.
    by rewrite H, Nat.eqb_refl.
  - intros headers line data H. unfold parseCSV_step.
    by destruct (Nat.eqb_spec (length (parseCSVLine line)) (length headers)).
Qed.

(** ** Pagination *)

(** [Math_ceil_div a b] is the ceiling of [a / b] for a positive [b]. *)
Lemma Math_ceil_div_pos a b :
  0 < b →
  ∃ q, Math_ceil_div a b = Fin q ∧ b * (q - 1) < a ≤ b * q.
Proof.
  intros Hb. unfold Math_ceil_div.
  destruct (Z.eqb_spec b 0) as [->|_]; [lia|].
  exists (- (- a / b)). split; [done|].
  pose proof (Z.mul_div_le (- a) b Hb).
  pose proof (Z.mul_succ_div_gt (- a) b Hb).
  nia.
Qed.

Lemma Math_ceil_div_minus_one a : Math_ceil_div a (-1) = Fin (- a).
Proof.
  unfold Math_ceil_div. change (-1 =? 0) with false. cbv iota.
  do 2 f_equal. change (-1) with (- (1)).
  rewrite Z.div_opp_opp by lia. apply Z.div_1_r.
Qed.

Lemma Array_slice_all {A} (l : list A) :
  Array_slice l 0 (Z.of_nat (length l)) = l.
Proof.
  unfold Array_slice.
  change (0 <? 0) with false. cbv iota.
  destruct (Z.ltb_spec (Z.of_nat (length l)) 0) as [?|_]; [lia|].
  rewrite Z.min_id, Z.min_l by lia.
  rewrite Z.sub_0_r, Nat2Z.id. simpl. apply firstn_all.
Qed.

(** C1, as the claim has it: for the empty dataset and 25 rows a page,
    [updatePagination] counts 0 pages, not 1. *)
Lemma updatePagination_empty_has_no_page :
  totalPages (updatePagination (Z.of_nat (length (@nil record))) 1 25) = Fin 0
  ∧ ¬ (∃ pages,
         totalPages (updatePagination (Z.of_nat (length (@nil record))) 1 25)
         = Fin pages ∧ 1 ≤ pages).
Proof.
  split; [done|]. intros (pages & H & Hp). vm_compute in H.
  injection H as <-. lia.
Qed.

(** C1 (amended): for a positive [itemsPerPage], [totalPages] is the ceiling
    of [totalItems / itemsPerPage]; it is at least 1 exactly when there is a
    row, and 0 for the empty dataset, where [startItem] and [endItem] are 0
    and the page shown has no row. *)
Theorem updatePagination_totalPages_ceiling
    (rows : list record) (currentPage itemsPerPage : Z) :
  0 < itemsPerPage → 1 ≤ currentPage →
  ∃ pages,
    totalPages (updatePagination (Z.of_nat (length rows)) currentPage itemsPerPage)
    = Fin pages
    ∧ itemsPerPage * (pages - 1) < Z.of_nat (length rows) ≤ itemsPerPage * pages
    ∧ (1 ≤ pages ↔ 1 ≤ Z.of_nat (length rows))
    ∧ (rows = [] →
       pages = 0
       ∧ showing (updatePagination (Z.of_nat (length rows)) currentPage itemsPerPage)
         = Some (0, 0)
       ∧ renderTable rows currentPage itemsPerPage = []).
Proof.
  intros Hsize Hpage.
  destruct (Math_ceil_div_pos (Z.of_nat (length rows)) itemsPerPage Hsize)
    as (pages & Hceil & Hbounds).
  exists pages. unfold updatePagination. simpl.
  destruct (Z.eqb_spec itemsPerPage (-1)) as [?|_]; [lia|].
  split; [done|]. split; [done|]. split; [nia|].
  intros ->. simpl in *. split; [nia|]. split; [|done].
  f_equal. f_equal. lia.
Qed.

Lemma updatePagination_totalPages_ceiling_witness :
  (0 < 25 ∧ 1 ≤ 1) ∧
  ∃ pages,
    totalPages (updatePagination (Z.of_nat (length (@nil record))) 1 25)
    = Fin pages
    ∧ 25 * (pages - 1) < Z.of_nat (length (@nil record)) ≤ 25 * pages
    ∧ (1 ≤ pages ↔ 1 ≤ Z.of_nat (length (@nil record)))
    ∧ (@nil record = [] →
       pages = 0
       ∧ showing (updatePagination (Z.of_nat (length (@nil record))) 1 25)
         = Some (0, 0)
       ∧ renderTable [] 1 25 = []).
Proof.
  split; [lia|].
  apply (updatePagination_totalPages_ceiling [] 1 25); lia.
Defined.

(** C7: with the show-all sentinel [-1] as [itemsPerPage], [updatePagination]
    counts one page and [renderTable] shows every row, whatever the page. *)
Theorem show_all_is_one_page (rows : list record) (currentPage : Z) :
  totalPages (updatePagination (Z.of_nat (length rows)) currentPage (-1)) = Fin 1
  ∧ renderTable rows currentPage (-1) = rows.
Proof.
  split; [done|]. unfold renderTable.
  destruct rows as [|row rows]; [done|].
  change (length (row :: rows) =? 0)%nat with false. cbv iota.
  change (-1 =? -1) with true. cbv iota.
  apply Array_slice_all.
Qed.

(** ** The callbacks complete normally *)

Section Callbacks.

Variable toLowerCase : jsstring → jsstring.
Variable parseFloat : jsstring → float.
Variable localeCompare : jsstring → jsstring → float.

Lemma cellIncludes_normal this v :
  cellIncludes toLowerCase this v = Normal (cellAnswer toLowerCase this v).
Proof. by destruct v. Qed.

Lemma Array_some_normal {A} (f : A → completion (option bool)) g l :
  (∀ x, f x = Normal (g x)) →
  Array_some f l = Normal (existsb (λ x, ToBoolean (g x)) l).
Proof.
  intros Hf. induction l as [|x l IH]; simpl; [done|].
  rewrite Hf. simpl. by destruct (ToBoolean (g x)).
Qed.

Lemma Array_filter_normal {A} (f : A → completion (option bool)) g l :
  (∀ x, f x = Normal (g x)) →
  Array_filter f l = Normal (List.filter (λ x, ToBoolean (g x)) l).
Proof.
  intros Hf. induction l as [|x l IH]; simpl; [done|].
  rewrite Hf, IH. simpl. by destruct (ToBoolean (g x)).
Qed.

Lemma matchesSearch_normal this row :
  matchesSearch toLowerCase this row = Normal (rowAnswer toLowerCase this row).
Proof.
  unfold matchesSearch, rowAnswer.
  destruct (truthy (columnFilter this)); [apply cellIncludes_normal|].
  by rewrite (Array_some_normal _ (cellAnswer toLowerCase this))
    by apply cellIncludes_normal.
Qed.

Lemma searchStage_normal this rows :
  searchStage toLowerCase this rows =
  Normal (if truthy (searchTerm this)
          then List.filter (λ row, ToBoolean (rowAnswer toLowerCase this row)) rows
          else rows).
Proof.
  unfold searchStage. destruct (truthy (searchTerm this)); [|done].
  apply Array_filter_normal, matchesSearch_normal.
Qed.

Lemma cellText_normal column row :
  cellText column row = Normal (textOf (getProp row column)).
Proof. unfold cellText. by destruct (getProp row column). Qed.

Lemma compareRows_normal column dir a b :
  compareRows parseFloat localeCompare column dir a b =
  Normal (compareTexts parseFloat localeCompare dir
            (textOf (getProp a column)) (textOf (getProp b column))).
Proof.
  unfold compareRows, compareTexts. rewrite !cellText_normal. simpl.
  by destruct (negb _ && negb _).
Qed.

(** The sort rearranges and nothing else, whatever the comparator answers. *)
Lemma sort_insert_Permutation {A} (cmp : A → A → completion float) x l :
  (∀ a b, ∃ v, cmp a b = Normal v) →
  ∃ l', sort_insert cmp x l = Normal l' ∧ l' ≡ₚ x :: l.
Proof.
  intros Hcmp. induction l as [|y l (l' & Hl' & Hperm)]; simpl.
  - by exists [x].
  - destruct (Hcmp x y) as [v ->]. simpl.
    destruct (0 <? v)%float.
    + rewrite Hl'. simpl. exists (y :: l'). split; [done|].
      rewrite Hperm. apply Permutation_swap.
    + by exists (x :: y :: l).
Qed.

Lemma Array_sort_Permutation {A} (cmp : A → A → completion float) l :
  (∀ a b, ∃ v, cmp a b = Normal v) →
  ∃ l', Array_sort cmp l = Normal l' ∧ l' ≡ₚ l.
Proof.
  intros Hcmp. induction l as [|x l (sorted & Hsorted & Hperm)]; simpl.
  - by exists [].
  - rewrite Hsorted. simpl.
    destruct (sort_insert_Permutation cmp x sorted Hcmp) as (l' & Hl' & Hperm').
    exists l'. split; [done|]. by rewrite Hperm', Hperm.
Qed.

(** The model of [sort] against ECMAScript: when the comparator is
    consistent ([mayPrecede] is transitive, and of two elements one may stand
    before the other), the outcome is in order, every element before all
    that follow it. *)
Lemma sort_insert_StronglySorted {A} (cmp : A → A → completion float) f x l :
  (∀ a b, cmp a b = Normal (f a b)) →
  (∀ a b c, mayPrecede f a b → mayPrecede f b c → mayPrecede f a c) →
  (∀ a b, mayPrecede f a b ∨ mayPrecede f b a) →
  StronglySorted (mayPrecede f) l →
  ∃ l', sort_insert cmp x l = Normal l' ∧ StronglySorted (mayPrecede f) l'.
Proof.
  intros Hcmp Htrans Htotal. induction l as [|y l IH]; intros Hsorted; simpl.
  - exists [x]. split; [done|]. repeat constructor.
  - apply StronglySorted_cons in Hsorted as [Hy Hsorted].
    rewrite Hcmp. simpl. destruct (0 <? f x y)%float eqn:Hxy.
    + destruct (IH Hsorted) as (l' & Hl' & Hsorted').
      rewrite Hl'. simpl. exists (y :: l'). split; [done|].
      apply StronglySorted_cons. split; [|done].
      destruct (sort_insert_Permutation cmp x l) as (l'' & Hl'' & Hperm);
        [by eauto|].
      rewrite Hl' in Hl''. injection Hl'' as <-.
      rewrite Hperm. constructor; [|done].
      destruct (Htotal x y) as [H|H]; [|done].
      unfold mayPrecede in H. congruence.
    + exists (x :: y :: l). split; [done|].
      apply StronglySorted_cons. split.
      * constructor; [done|].
        eapply Forall_impl; [exact Hy|]. intros z Hz. by apply (Htrans x y z).
      * by apply StronglySorted_cons.
Qed.

Lemma Array_sort_StronglySorted {A} (cmp : A → A → completion float) f l :
  (∀ a b, cmp a b = Normal (f a b)) →
  (∀ a b c, mayPrecede f a b → mayPrecede f b c → mayPrecede f a c) →
  (∀ a b, mayPrecede f a b ∨ mayPrecede f b a) →
  ∃ l', Array_sort cmp l = Normal l' ∧ StronglySorted (mayPrecede f) l'.
Proof.
  intros Hcmp Htrans Htotal. induction l as [|x l (sorted & Hsorted & Hord)]; simpl.
  - exists []. split; [done|]. constructor.
  - rewrite Hsorted. simpl. by apply (sort_insert_StronglySorted cmp f).
Qed.

Lemma sortRows_Permutation column dir rows :
  ∃ sorted,
    sortRows parseFloat localeCompare column dir rows = Normal sorted
    ∧ sorted ≡ₚ rows.
Proof.
  apply Array_sort_Permutation. intros a b.
  rewrite compareRows_normal. eauto.
Qed.

Lemma sortStage_Permutation this rows :
  ∃ sorted,
    sortStage parseFloat localeCompare this rows = Normal sorted
    ∧ sorted ≡ₚ rows.
Proof.
  unfold sortStage. destruct (sortColumn this) as [column|]; [|by exists rows].
  destruct (truthy column); [|by exists rows].
  apply sortRows_Permutation.
Qed.

(** ** [filterData] on the heap *)

Lemma deref_alloc h rows : deref (h ++ [rows]) (length h) = rows.
Proof. unfold deref. by rewrite list_lookup_middle. Qed.

(** [filterData] runs the two stages on the rows of [this.data], leaves the
    heap it found as it is, and puts the outcome in an array of its own. *)
Lemma filterData_stages this h :
  ∃ kept sorted,
    searchStage toLowerCase this (deref h (data this)) = Normal kept
    ∧ sortStage parseFloat localeCompare this kept = Normal sorted
    ∧ filterData toLowerCase parseFloat localeCompare this h
      = Normal
          (set_filteredData
             (if truthy (searchTerm this) then S (length h) else length h) this,
           h ++ (if truthy (searchTerm this) then [deref h (data this)] else [])
             ++ [sorted]).
Proof.
  pose proof (searchStage_normal this (deref h (data this))) as Hsearch.
  destruct (sortStage_Permutation this
              (if truthy (searchTerm this)
               then List.filter (λ row, ToBoolean (rowAnswer toLowerCase this row))
                      (deref h (data this))
               else deref h (data this))) as (sorted & Hsort & _).
  eexists _, sorted. split; [exact Hsearch|]. split; [exact Hsort|].
  unfold filterData, alloc. unfold searchStage in Hsearch.
  unfold sortStage in Hsort.
  rewrite deref_alloc.
  destruct (truthy (searchTerm this)).
  - rewrite Hsearch. simpl.
    replace (length (h ++ [deref h (data this)]))
      with (S (length h)) by (rewrite length_app; simpl; lia).
    rewrite <- app_assoc. simpl.
    set (kept := List.filter _ _) in *.
    assert (Hd : deref (h ++ [deref h (data this); kept]) (S (length h)) = kept).
    { change (h ++ [deref h (data this); kept])
        with (h ++ [deref h (data this)] ++ [kept]).
      rewrite app_assoc.
      replace (S (length h)) with (length (h ++ [deref h (data this)]))
        by (rewrite length_app; simpl; lia).
      apply deref_alloc. }
    assert (Hi : ∀ rows,
      <[S (length h) := rows]> (h ++ [deref h (data this); kept])
      = h ++ [deref h (data this); rows]).
    { intros rows. rewrite insert_app_r_alt by lia.
      replace (S (length h) - length h)%nat with 1%nat by lia. done. }
    destruct (sortColumn this) as [column|]; [|by injection Hsort as <-].
    destruct (truthy column); [|by injection Hsort as <-].
    rewrite Hd, Hsort. simpl. by rewrite Hi.
  - simpl. rewrite deref_alloc.
    assert (Hi : ∀ rows,
      <[length h := rows]> (h ++ [deref h (data this)]) = h ++ [rows]).
    { intros rows. rewrite insert_app_r_alt by lia.
      by rewrite Nat.sub_diag. }
    destruct (sortColumn this) as [column|]; [|by injection Hsort as <-].
    destruct (truthy column); [|by injection Hsort as <-].
    rewrite Hsort. simpl. by rewrite Hi.
Qed.

End Callbacks.

(** ** Sorting *)

Section Sorting.

Variable toLowerCase : jsstring → jsstring.
Variable parseFloat : jsstring → float.
Variable localeCompare : jsstring → jsstring → float.

(** C5: the comparator reads both cells as text (a missing cell as the empty
    text) and parses both; when neither parse is [NaN] it answers the
    difference of the two numbers, taken the other way round for [desc];
    otherwise it answers [localeCompare], negated for [desc].  With numerals
    10, 2, 1 read as those numbers, sorting the rows 10, 2, 1 ascending gives
    1, 2, 10. *)
Theorem compareRows_numeric_then_locale :
  (∀ column dir a b,
     is_nan (parseFloat (textOf (getProp a column))) = false →
     is_nan (parseFloat (textOf (getProp b column))) = false →
     compareRows parseFloat localeCompare column dir a b =
     Normal (match dir with
             | asc => parseFloat (textOf (getProp a column))
                      - parseFloat (textOf (getProp b column))
             | desc => parseFloat (textOf (getProp b column))
                       - parseFloat (textOf (getProp a column))
             end)%float)
  ∧ (∀ column dir a b,
       is_nan (parseFloat (textOf (getProp a column))) = true
       ∨ is_nan (parseFloat (textOf (getProp b column))) = true →
       compareRows parseFloat localeCompare column dir a b =
       Normal (match dir with
               | asc => localeCompare (textOf (getProp a column))
                          (textOf (getProp b column))
               | desc => - localeCompare (textOf (getProp a column))
                             (textOf (getProp b column))
               end)%float)
  ∧ (parseFloat (lit "10") = 10%float →
     parseFloat (lit "2") = 2%float →
     parseFloat (lit "1") = 1%float →
     ∀ column a b c,
       getProp a column = VString (lit "10") →
       getProp b column = VString (lit "2") →
       getProp c column = VString (lit "1") →
       sortRows parseFloat localeCompare column asc [a; b; c] = Normal [c; b; a]).
Proof.
  split; [|split].
  - intros column dir a b Ha Hb.
    rewrite compareRows_normal. unfold compareTexts. by rewrite Ha, Hb.
  - intros column dir a b Hab.
    rewrite compareRows_normal. unfold compareTexts.
    destruct Hab as [-> | ->]; [done|]. by rewrite andb_false_r.
  - intros H10 H2 H1 column a b c Ha Hb Hc.
    assert (Hbc : ∃ v, compareRows parseFloat localeCompare column asc b c = Normal v
                       ∧ (0 <? v)%float = true).
    { eexists. rewrite compareRows_normal, Hb, Hc. unfold compareTexts, textOf.
      rewrite H2, H1. by split. }
    assert (Hac : ∃ v, compareRows parseFloat localeCompare column asc a c = Normal v
                       ∧ (0 <? v)%float = true).
    { eexists. rewrite compareRows_normal, Ha, Hc. unfold compareTexts, textOf.
      rewrite H10, H1. by split. }
    assert (Hab : ∃ v, compareRows parseFloat localeCompare column asc a b = Normal v
                       ∧ (0 <? v)%float = true).
    { eexists. rewrite compareRows_normal, Ha, Hb. unfold compareTexts, textOf.
      rewrite H10, H2. by split. }
    destruct Hbc as (vbc & Hbc & Pbc), Hac as (vac & Hac & Pac),
      Hab as (vab & Hab & Pab).
    unfold sortRows. cbn -[compareRows].
    rewrite Hbc. cbn -[compareRows]. rewrite Pbc. cbn -[compareRows].
    rewrite Hac. cbn -[compareRows]. rewrite Pac. cbn -[compareRows].
    rewrite Hab. cbn -[compareRows]. by rewrite Pab.
Qed.

(** C6: sorting by a column in a direction completes with a rearrangement of
    the rows it was given: the same rows, each as often as before.  So does
    the sorting stage of [filterData], which [filterData] applies to the rows
    the search kept. *)
Theorem sortRows_same_multiset :
  (∀ column dir rows,
     ∃ sorted,
       sortRows parseFloat localeCompare column dir rows = Normal sorted
       ∧ sorted ≡ₚ rows)
  ∧ (∀ this rows,
       ∃ sorted,
         sortStage parseFloat localeCompare this rows = Normal sorted
         ∧ sorted ≡ₚ rows)
  ∧ (∀ this h,
       ∃ kept this' h',
         searchStage toLowerCase this (deref h (data this)) = Normal kept
         ∧ filterData toLowerCase parseFloat localeCompare this h
           = Normal (this', h')
         ∧ deref h' (filteredData this') ≡ₚ kept).
Proof.
  split; [|split].
  - apply sortRows_Permutation.
  - apply sortStage_Permutation.
  - intros this h.
    destruct (filterData_stages toLowerCase parseFloat localeCompare this h)
      as (kept & sorted & Hkept & Hsorted & Hrun).
    destruct (sortStage_Permutation parseFloat localeCompare this kept)
      as (sorted' & Hsorted' & Hperm).
    rewrite Hsorted in Hsorted'. injection Hsorted' as <-.
    eexists kept, _, _. split; [done|]. split; [exact Hrun|].
    simpl. destruct (truthy (searchTerm this)); simpl.
    + change (h ++ [deref h (data this); sorted])
        with (h ++ [deref h (data this)] ++ [sorted]).
      rewrite app_assoc.
      replace (S (length h)) with (length (h ++ [deref h (data this)]))
        by (rewrite length_app; simpl; lia).
      by rewrite deref_alloc.
    + by rewrite deref_alloc.
Qed.

End Sorting.

Lemma compareRows_numeric_then_locale_witness :
  (Plain.parseFloat (lit "10") = 10%float
   ∧ Plain.parseFloat (lit "2") = 2%float
   ∧ Plain.parseFloat (lit "1") = 1%float)
  ∧ sortRows Plain.parseFloat Plain.localeCompare (lit "v") asc
      [[(lit "v", lit "10")]; [(lit "v", lit "2")]; [(lit "v", lit "1")]]
    = Normal [[(lit "v", lit "1")]; [(lit "v", lit "2")]; [(lit "v", lit "10")]].
Proof.
  split; [by vm_compute|].
  apply (proj2 (proj2
    (compareRows_numeric_then_locale Plain.parseFloat Plain.localeCompare)));
    reflexivity.
Defined.

(** ** The viewer's handlers *)

Section Viewer.

Variable toLowerCase : jsstring → jsstring.
Variable parseFloat : jsstring → float.
Variable localeCompare : jsstring → jsstring → float.
Variable parseInt : jsstring → option Z.

Local Abbreviation filterData' := (filterData toLowerCase parseFloat localeCompare).
Local Abbreviation step' := (step toLowerCase parseFloat localeCompare parseInt).

(** [filterData] completes normally and assigns [filteredData] alone. *)
Lemma filterData_normal this h :
  ∃ l h', filterData' this h = Normal (set_filteredData l this, h').
Proof.
  destruct (filterData_stages toLowerCase parseFloat localeCompare this h)
    as (kept & sorted & _ & _ & Hrun).
  eauto.
Qed.


(** C9: [filterData] completes with [this.data] still the same reference,
    every array of the heap it started from still holding the same records in
    the same order (the dataset among them), and [this.filteredData] a
    reference to an array that did not exist before. *)
Theorem filterData_leaves_dataset (this : DataViewer) (h : heap) :
  ∃ this' h',
    filterData' this h = Normal (this', h')
    ∧ data this' = data this
    ∧ (∀ l, (l < length h)%nat → h' !! l = h !! l)
    ∧ ((data this < length h)%nat → deref h' (data this') = deref h (data this))
    ∧ (length h ≤ filteredData this' < length h')%nat.
Proof.
  destruct (filterData_stages toLowerCase parseFloat localeCompare this h)
    as (kept & sorted & _ & _ & Hrun).
  eexists _, _. split; [exact Hrun|]. split; [done|].
  assert (Hframe : ∀ l, (l < length h)%nat →
    (h ++ (if truthy (searchTerm this) then [deref h (data this)] else [])
       ++ [sorted]) !! l = h !! l).
  { intros l Hl. by rewrite lookup_app_l. }
  split; [exact Hframe|]. split.
  - intros Hl. unfold deref. simpl. by rewrite Hframe.
  - simpl. rewrite !length_app.
    destruct (truthy (searchTerm this)); simpl; lia.
Qed.

(** C10: [handleSort] completes; asked for the active sort column it keeps
    the column and flips the direction, asked for any other column it makes
    that the sort column and the direction ascending. *)
Theorem handleSort_toggles_or_resets (column : jsstring) (this : DataViewer)
    (h : heap) :
  ∃ this' h',
    handleSort toLowerCase parseFloat localeCompare column this h
    = Normal (this', h')
    ∧ (sortColumn this = Some column →
       sortColumn this' = sortColumn this
       ∧ sortDirection this'
         = match sortDirection this with asc => desc | desc => asc end)
    ∧ (sortColumn this ≠ Some column →
       sortColumn this' = Some column ∧ sortDirection this' = asc).
Proof.
  unfold handleSort.
  destruct (filterData_normal
    (if bool_decide (sortColumn this = Some column)
     then set_sortDirection
            match sortDirection this with asc => desc | desc => asc end this
     else set_sortDirection asc (set_sortColumn (Some column) this)) h)
    as (l & h' & ->).
  eexists _, _. split; [done|].
  split; intros Hcol.
  - by rewrite bool_decide_eq_true_2.
  - by rewrite bool_decide_eq_false_2.
Qed.

Ltac run_filterData :=
  match goal with
  | |- context [filterData _ _ _ ?t ?h0] =>
      destruct (filterData_normal t h0) as (? & ? & ->)
  end.

(** Every step but a page size [parseInt] cannot read has a successor. *)
Lemma step_total_but_parseInt e w :
  (∀ value, e ≠ HandleEntriesChange value) → is_Some (step' e w).
Proof.
  destruct w as [this h]. intros He.
  destruct e as [| | | |v| | | |]; simpl; try done.
  - unfold handleSort. by run_filterData.
  - unfold handleSearch. by run_filterData.
  - unfold handleColumnFilter. by run_filterData.
  - by destruct (He v).
Qed.

(** C3 (amended): a step changes [currentPage] only when it is a call of
    [goToPage], [previousPage] or [nextPage], or when it is a new search
    term, column filter or page size, or a confirmed logout, each of which
    sets the page to 1; sorting and loading leave the page as it is.
    [previousPage] changes nothing on page 1, and [nextPage] changes nothing
    on the last page. *)
Theorem currentPage_changes_by_navigation_or_reset :
  (∀ e w w',
     step' e w = Some w' →
     currentPage w'.1 ≠ currentPage w.1 →
     navigates e = true ∨ (resetsPage e = true ∧ currentPage w'.1 = 1))
  ∧ (∀ this, currentPage this = 1 → previousPage this = this)
  ∧ (∀ this h,
       totalPages
         (updatePagination (Z.of_nat (length (deref h (filteredData this))))
            (currentPage this) (itemsPerPage this))
       = Fin (currentPage this) →
       nextPage h this = this).
Proof.
  split; [|split].
  - intros e [this h] [this' h'] Hstep Hpage. simpl in Hpage.
    destruct e as [csvText|column|term|column|v|pageNum| | |confirmed];
      simpl in Hstep; auto.
    + exfalso. apply Hpage. unfold loadData, alloc in Hstep.
      destruct (length (parseCSV csvText) =? 0)%nat.
      * by injection Hstep as <- <-.
      * destruct (filterData_normal (set_data (length h) this)
                    (h ++ [parseCSV csvText])) as (l & h0 & Hrun).
        rewrite Hrun in Hstep. by injection Hstep as <- <-.
    + exfalso. apply Hpage. unfold handleSort in Hstep.
      destruct (filterData_normal
        (if bool_decide (sortColumn this = Some column)
         then set_sortDirection
                match sortDirection this with asc => desc | desc => asc end this
         else set_sortDirection asc (set_sortColumn (Some column) this)) h)
        as (l & h0 & Hrun).
      rewrite Hrun in Hstep. injection Hstep as <- <-.
      by destruct (bool_decide _).
    + right. split; [done|]. unfold handleSearch in Hstep.
      destruct (filterData_normal
        (set_currentPage 1 (set_searchTerm (toLowerCase term) this)) h)
        as (l & h0 & Hrun).
      rewrite Hrun in Hstep. by injection Hstep as <- <-.
    + right. split; [done|]. unfold handleColumnFilter in Hstep.
      destruct (filterData_normal
        (set_currentPage 1 (set_columnFilter column this)) h)
        as (l & h0 & Hrun).
      rewrite Hrun in Hstep. by injection Hstep as <- <-.
    + right. split; [done|]. unfold handleEntriesChange in Hstep.
      destruct (if bool_decide (v = lit "-1") then Some (-1) else parseInt v);
        simpl in Hstep; [|done].
      by injection Hstep as <- <-.
    + destruct confirmed.
      * right. split; [done|]. by injection Hstep as <- <-.
      * exfalso. apply Hpage. by injection Hstep as <- <-.
  - intros this Hpage. unfold previousPage. by rewrite Hpage.
  - intros this h Hlast. unfold nextPage.
    unfold updatePagination in Hlast. simpl in Hlast.
    destruct (Z.eqb_spec (itemsPerPage this) (-1)) as [Hall|Hsize].
    + injection Hlast as Hlast.
      rewrite Hall, <- Hlast, Math_ceil_div_minus_one. unfold lt_number.
      destruct (Z.ltb_spec 1 (- Z.of_nat (length (deref h (filteredData this)))));
        [lia|done].
    + rewrite Hlast. simpl. by rewrite Z.ltb_irrefl.
Qed.

End Viewer.

(** ** Runs of the viewer on plain inputs *)

Lemma after_reachable es w :
  after es = Some w →
  reachable Plain.toLowerCase Plain.parseFloat Plain.localeCompare Plain.parseInt w.
Proof.
  revert w. induction es as [|e es IH] using rev_ind; intros w.
  - intros [= <-]. apply reachable_constructor.
  - unfold after. rewrite foldl_snoc. fold (after es).
    destruct (after es) as [w0|] eqn:Hes; [|done].
    simpl. intros Hstep. by apply (reachable_step _ _ _ _ e w0 w); [apply IH|].
Qed.

(** C3, as the claim has it: with 26 rows loaded and the second page open, a
    reachable state, the search handler is no call of [goToPage],
    [previousPage] or [nextPage], and it takes the viewer from page 2 to
    page 1. *)
Lemma handleSearch_resets_currentPage :
  reachable Plain.toLowerCase Plain.parseFloat Plain.localeCompare Plain.parseInt
    viewer_on_page_2
  ∧ plain_step (HandleSearch (lit "x")) viewer_on_page_2 = Some viewer_after_search
  ∧ navigates (HandleSearch (lit "x")) = false
  ∧ currentPage viewer_on_page_2.1 = 2
  ∧ currentPage viewer_after_search.1 = 1.
Proof.
  split; [|by vm_compute].
  apply (after_reachable [LoadData csv_26_rows; NextPage]). by vm_compute.
Qed.

Lemma currentPage_changes_by_navigation_or_reset_witness :
  (plain_step (HandleSearch (lit "x")) viewer_on_page_2 = Some viewer_after_search
   ∧ currentPage viewer_after_search.1 ≠ currentPage viewer_on_page_2.1)
  ∧ (navigates (HandleSearch (lit "x")) = true
     ∨ (resetsPage (HandleSearch (lit "x")) = true
        ∧ currentPage viewer_after_search.1 = 1)).
Proof.
  assert (Hstep : plain_step (HandleSearch (lit "x")) viewer_on_page_2
                  = Some viewer_after_search) by (by vm_compute).
  assert (Hpage : currentPage viewer_after_search.1 ≠ currentPage viewer_on_page_2.1)
    by (by vm_compute).
  split; [by split|].
  exact (proj1 (currentPage_changes_by_navigation_or_reset
    Plain.toLowerCase Plain.parseFloat Plain.localeCompare Plain.parseInt)
    _ _ _ Hstep Hpage).
Defined.


Lemma handleSort_toggles_or_resets_witness :
  sortColumn viewer_sorted_by_v = Some (lit "v")
  ∧ ∃ this' h',
      handleSort Plain.toLowerCase Plain.parseFloat Plain.localeCompare
        (lit "v") viewer_sorted_by_v [[]; []] = Normal (this', h')
      ∧ sortColumn this' = Some (lit "v")
      ∧ sortDirection this' = desc.
Proof.
  split; [reflexivity|].
  destruct (handleSort_toggles_or_resets
    Plain.toLowerCase Plain.parseFloat Plain.localeCompare
    (lit "v") viewer_sorted_by_v [[]; []]) as (this' & h' & Hrun & Hsame & _).
  exists this', h'. split; [exact Hrun|]. apply Hsame. reflexivity.
Defined.

Lemma parseCSVLine_quoting_witness :
  ((dquote ∉ lit "a,b") ∧ (head (comma :: lit "c") ≠ Some dquote))
  ∧ parseCSVLine_loop (dquote :: lit "a,b" ++ dquote :: comma :: lit "c") [] [] false
    = parseCSVLine_loop (comma :: lit "c") [] ([] ++ lit "a,b") false.
Proof.
  assert (Hs : dquote ∉ lit "a,b") by compute_done.
  assert (Hrest : head (comma :: lit "c") ≠ Some dquote) by compute_done.
  split; [by split|].
  exact (proj1 (proj2 (proj2 (proj2 parseCSVLine_quoting)))
           (lit "a,b") (comma :: lit "c") [] [] Hs Hrest).
Defined.

Lemma parseCSV_keeps_matching_rows_witness :
  length (parseCSVLine (lit "4,5")) = length [lit "a"; lit "b"]
  ∧ parseCSV_step [lit "a"; lit "b"] [] (lit "4,5")
    = [] ++ [makeRow [lit "a"; lit "b"] (parseCSVLine (lit "4,5"))].
Proof.
  split; [reflexivity|].
  apply (proj1 (proj2 parseCSV_keeps_matching_rows)). reflexivity.
Defined.

Lemma filterData_leaves_dataset_witness :
  (data (fst viewer_on_page_2) < length (snd viewer_on_page_2))%nat
  ∧ ∃ this' h',
      filterData Plain.toLowerCase Plain.parseFloat Plain.localeCompare
        (fst viewer_on_page_2) (snd viewer_on_page_2) = Normal (this', h')
      ∧ deref h' (data this') = deref (snd viewer_on_page_2) (data (fst viewer_on_page_2)).
Proof.
  assert (Hdata : (data (fst viewer_on_page_2) < length (snd viewer_on_page_2))%nat)
    by (vm_compute; lia).
  split; [exact Hdata|].
  destruct (filterData_leaves_dataset
    Plain.toLowerCase Plain.parseFloat Plain.localeCompare
    (fst viewer_on_page_2) (snd viewer_on_page_2))
    as (this' & h' & Hrun & _ & _ & Hsame & _).
  exists this', h'. split; [exact Hrun|]. exact (Hsame Hdata).
Defined.
